(** * Offline cache controller (service-worker.js)

    A shallow embedding of the service worker and of the part of the host
    platform it talks to (CacheStorage, Cache, fetch, promises, the worker
    lifecycle), followed by the properties of its three lifecycle reactions.

    The worker itself is three promise chains; they are embedded in a small
    state-and-rejection monad [Promise] over a [World] that holds the durable
    cache storage of the origin and the log of requests sent to the network. *)

From stdpp Require Import gmap strings list.

(** ** Values exchanged with the host *)

(** A request as the cache sees it: its URL (already resolved, fragment
    dropped) and its normalised method. *)
Record Request := mkRequest { url : string; method : string }.

(** A response: its status code and its payload bytes. *)
Record Response := mkResponse { status : nat; body : string }.

(** What a rejected promise carries. *)
Inductive JsError :=
  | TypeError (msg : string)
  | DOMException (name : string).

(** A settled promise. *)
Inductive Settled (A : Type) :=
  | Fulfilled (a : A)
  | Rejected (e : JsError).
Arguments Fulfilled {A} a.
Arguments Rejected {A} e.

(** A bucket maps the URL of a stored GET request to its response; the cache
    storage is the list of named buckets in creation order (the order of
    [caches.keys()] and of the search of [caches.match]). *)
Abbreviation Cache := (gmap string Response).
Abbreviation CacheStorage := (list (string * gmap string Response)).

Record World := mkWorld { storage : CacheStorage; netlog : list Request }.

Definition set_storage (st : CacheStorage) (w : World) : World :=
  {| storage := st; netlog := netlog w |}.

Definition log_requests (rs : list Request) (w : World) : World :=
  {| storage := storage w; netlog := netlog w ++ rs |}.

(** ** Promises *)

Definition Promise (A : Type) : Type := World -> Settled A * World.

(** [Promise.resolve(a)], and a plain value returned from a [then] callback. *)
Definition resolve {A} (a : A) : Promise A := fun w => (Fulfilled a, w).

(** [p.then(f)]: a rejection of [p] skips [f]. *)
Definition then_ {A B} (p : Promise A) (f : A -> Promise B) : Promise B :=
  fun w =>
    match p w with
    | (Fulfilled a, w1) => f a w1
    | (Rejected e, w1) => (Rejected e, w1)
    end.

Notation "p >>= f" := (then_ p f) (at level 50, left associativity).

(** [Promise.all(ps)]: every operation of [ps] has been started, so each one
    takes effect; the result is rejected with the first rejection, if any. *)
Fixpoint Promise_all {A} (ps : list (Promise A)) (w : World)
  : Settled (list A) * World :=
  match ps with
  | [] => (Fulfilled [], w)
  | p :: ps' =>
      let '(r, w1) := p w in
      let '(rs, w2) := Promise_all ps' w1 in
      (match r, rs with
       | Rejected e, _ => Rejected e
       | Fulfilled _, Rejected e => Rejected e
       | Fulfilled a, Fulfilled l => Fulfilled (a :: l)
       end, w2)
  end.

(** ** The host's cache storage *)

Definition GET : string := "GET".

(** The request made from a URL string, as [cache.addAll] builds it. *)
Definition request_of_url (u : string) : Request :=
  {| url := u; method := GET |}.

(** The bucket registered under [name], if any. *)
Fixpoint bucket (name : string) (st : CacheStorage) : option Cache :=
  match st with
  | [] => None
  | (n, c) :: rest => if decide (n = name) then Some c else bucket name rest
  end.

(** The names of the buckets, in creation order. *)
Definition keys (st : CacheStorage) : list string := fst <$> st.

(** Replace the contents of the bucket [name] by [f] of them. *)
Fixpoint update_bucket (name : string) (f : Cache -> Cache) (st : CacheStorage)
  : CacheStorage :=
  match st with
  | [] => []
  | (n, c) :: rest =>
      if decide (n = name) then (n, f c) :: rest
      else (n, c) :: update_bucket name f rest
  end.

(** The storage once the bucket [name] is there: a missing bucket is added,
    empty, after the existing ones. *)
Definition open_bucket (name : string) (st : CacheStorage) : CacheStorage :=
  match bucket name st with
  | Some _ => st
  | None => st ++ [(name, ∅)]
  end.

(** The buckets created before the bucket [name]. *)
Fixpoint before (name : string) (st : CacheStorage) : CacheStorage :=
  match st with
  | [] => []
  | (n, c) :: rest =>
      if decide (n = name) then [] else (n, c) :: before name rest
  end.

(** Drop the bucket [name]. *)
Fixpoint remove_bucket (name : string) (st : CacheStorage) : CacheStorage :=
  match st with
  | [] => []
  | (n, c) :: rest =>
      if decide (n = name) then remove_bucket name rest
      else (n, c) :: remove_bucket name rest
  end.

(** [cache.match(request)] with default options: only a GET request can
    match, and it matches the entry stored under its URL. A request is its
    URL and its method; matching that depends on headers is not modelled. *)
Definition cache_match (c : Cache) (request : Request) : option Response :=
  if decide (method request = GET) then c !! url request else None.

(** [caches.match(request)] on a storage: the buckets are searched in
    creation order and the first match wins. *)
Fixpoint storage_match (request : Request) (st : CacheStorage)
  : option Response :=
  match st with
  | [] => None
  | (_, c) :: rest =>
      match cache_match c request with
      | Some r => Some r
      | None => storage_match request rest
      end
  end.

(** A response [cache.addAll] accepts: an ok status other than 206. *)
Definition cacheable (r : Response) : bool :=
  bool_decide (200 <= status r <= 299) && negb (bool_decide (status r = 206)).

(** The batch of entries written by [cache.addAll]. *)
Definition put_all (entries : list (Request * Response)) (c : Cache) : Cache :=
  foldl (fun acc e => <[url e.1 := e.2]> acc) c entries.

Section Host.
(** The network, as seen from the worker: what a request is answered with. *)
Variable net : Request -> Settled Response.

(** [fetch(request)]: the request goes out and the network's answer comes
    back as it is. *)
Definition fetch (request : Request) : Promise Response :=
  fun w => (net request, log_requests [request] w).

(** [caches.open(name)]: the bucket is created empty when it is missing.
    The handle of a bucket is its name. *)
Definition caches_open (name : string) : Promise string :=
  fun w => (Fulfilled name, set_storage (open_bucket name (storage w)) w).

(** The responses for a list of requests, or the first failure: a network
    error, or a response that cannot be stored. *)
Fixpoint fetch_all (requests : list Request)
  : Settled (list (Request * Response)) :=
  match requests with
  | [] => Fulfilled []
  | rq :: rest =>
      match net rq with
      | Rejected e => Rejected e
      | Fulfilled r =>
          if cacheable r then
            match fetch_all rest with
            | Rejected e => Rejected e
            | Fulfilled l => Fulfilled ((rq, r) :: l)
            end
          else Rejected (TypeError "Request failed")
      end
  end.

(** [cache.addAll(urls)]: every URL is requested; the batch is written only
    when every response arrived and can be stored. *)
Definition cache_addAll (cache : string) (urls : list string) : Promise unit :=
  fun w =>
    let requests := request_of_url <$> urls in
    let w1 := log_requests requests w in
    match fetch_all requests with
    | Rejected e => (Rejected e, w1)
    | Fulfilled entries =>
        (Fulfilled (), set_storage (update_bucket cache (put_all entries) (storage w1)) w1)
    end.

(** [caches.match(request)]. *)
Definition caches_match (request : Request) : Promise (option Response) :=
  fun w => (Fulfilled (storage_match request (storage w)), w).

(** [caches.keys()]. *)
Definition caches_keys : Promise (list string) :=
  fun w => (Fulfilled (keys (storage w)), w).

(** [caches.delete(name)]: resolves to whether the bucket existed. *)
Definition caches_delete (name : string) : Promise bool :=
  fun w =>
    (Fulfilled (bool_decide (is_Some (bucket name (storage w)))),
     set_storage (remove_bucket name (storage w)) w).
End Host.

(** ** The service worker *)

Definition CACHE_NAME : string := "vofo-music-v1".

Definition urlsToCache : list string :=
  [ "/";
    "/index.html";
    "/manifest.json";
    "https://fonts.googleapis.com/css2?family=Cormorant+Garamond:ital,wght@0,400;0,500;0,600;1,400&family=Montserrat:wght@300;400;500;600&display=swap" ].

(** The three listeners, for a worker deployed with the version label
    [label] and the resource list [urls]. Each is the promise handed to
    [event.waitUntil] or [event.respondWith]. *)
Section Worker.
Variable net : Request -> Settled Response.
Variable label : string.
Variable urls : list string.

(** [install]: open the bucket of the label, then add the whole list. *)
Definition install_listener : Promise unit :=
  caches_open label >>= (fun cache => cache_addAll net cache urls).

(** [fetch]: a stored response if there is one, the network otherwise. *)
Definition fetch_listener (request : Request) : Promise Response :=
  caches_match request >>= (fun response =>
    match response with
    | Some r => resolve r
    | None => fetch net request
    end).

(** The callback mapped over the bucket names by [activate]: a deletion
    for a name other than the label, [undefined] for the label. *)
Definition prune (cacheName : string) : Promise (option bool) :=
  if decide (cacheName ≠ label)
  then caches_delete cacheName >>= (fun deleted => resolve (Some deleted))
  else resolve None.

(** [activate]: enumerate the buckets and delete the ones of other labels. *)
Definition activate_listener : Promise (list (option bool)) :=
  caches_keys >>= (fun cacheNames => Promise_all (prune <$> cacheNames)).
End Worker.

(** The listeners of the deployed worker. *)
Definition install (net : Request -> Settled Response) : Promise unit :=
  install_listener net CACHE_NAME urlsToCache.

Definition fetch_handler (net : Request -> Settled Response) (request : Request)
  : Promise Response :=
  fetch_listener net request.

Definition activate : Promise (list (option bool)) :=
  activate_listener CACHE_NAME.

(** ** The worker's lifecycle, as the host drives it *)

Inductive WorkerState := Activated | Redundant.

(** A deployment dispatches [install]; a rejected [waitUntil] promise makes
    the worker redundant, otherwise [activate] is dispatched and the worker
    becomes active whatever that promise settles to. *)
Definition deploy (net : Request -> Settled Response) (label : string)
    (urls : list string) (w : World) : WorkerState * World :=
  match install_listener net label urls w with
  | (Rejected _, w1) => (Redundant, w1)
  | (Fulfilled _, w1) => (Activated, (activate_listener label w1).2)
  end.

(** ** Sample networks and storages *)

Definition page (content : string) : Response :=
  {| status := 200; body := content |}.

(** A network that answers every request with a page naming its URL. *)
Definition net_online : Request -> Settled Response :=
  fun rq => Fulfilled (page (url rq)).

(** A network that answers nothing. *)
Definition net_offline : Request -> Settled Response :=
  fun _ => Rejected (TypeError "Failed to fetch").

(** A network on which only the font stylesheet is out of reach. *)
Definition net_no_fonts : Request -> Settled Response :=
  fun rq =>
    if decide (url rq = "/" \/ url rq = "/index.html" \/ url rq = "/manifest.json")
    then Fulfilled (page (url rq))
    else Rejected (TypeError "Failed to fetch").

(** The storage left by a previous version of the worker. *)
Definition world_v0 : World :=
  {| storage := [("vofo-music-v0", {[ "/" := page "old" ]})]; netlog := [] |}.

(** A storage that holds the bucket of a previous version before the
    current one, both with an entry for the root page. *)
Definition world_two_versions : World :=
  {| storage := [("vofo-music-v0", {[ "/" := page "old" ]});
                 (CACHE_NAME, {[ "/" := page "new" ]})];
     netlog := [] |}.

(** A storage that holds the current bucket only. *)
Definition world_current : World :=
  {| storage := [(CACHE_NAME, {[ "/" := page "new" ]})]; netlog := [] |}.

(** A network on which the manifest is answered with a 404 page. *)
Definition net_no_manifest : Request -> Settled Response :=
  fun rq =>
    if decide (url rq = "/manifest.json")
    then Fulfilled {| status := 404; body := "Not Found" |}
    else Fulfilled (page (url rq)).

(** A storage whose current bucket holds an entry the worker did not list. *)
Definition world_extra_entry : World :=
  {| storage := [(CACHE_NAME, {[ "/app.js" := page "script" ]})]; netlog := [] |}.

(** * Properties *)

(** ** Buckets of a storage *)

Lemma bucket_is_Some name st : is_Some (bucket name st) <-> name ∈ keys st.
Proof.
  induction st as [|[n c] rest IH]; simpl.
  - split; [intros [? ?]; discriminate | intros H; inversion H].
  - case_decide as Hn; subst.
    + split; [intros _; left | eauto].
    + rewrite IH. split; [intros H; by right|].
      intros H. apply elem_of_cons in H as [->|H]; [done | exact H].
Qed.

Lemma bucket_None name st : bucket name st = None <-> name ∉ keys st.
Proof. rewrite <- bucket_is_Some, eq_None_not_Some. done. Qed.

Lemma bucket_app name st st' :
  bucket name (st ++ st') =
  match bucket name st with Some c => Some c | None => bucket name st' end.
Proof.
  induction st as [|[n c] rest IH]; simpl; [done|].
  by case_decide.
Qed.

Lemma bucket_update_eq name f st :
  bucket name (update_bucket name f st) = f <$> bucket name st.
Proof.
  induction st as [|[n c] rest IH]; simpl; [done|].
  case_decide as Hn; simpl; case_decide; try done.
Qed.

Lemma bucket_update_ne name other f st :
  other ≠ name -> bucket other (update_bucket name f st) = bucket other st.
Proof.
  intros Hne. induction st as [|[n c] rest IH]; simpl; [done|].
  case_decide as Hn; simpl; case_decide; subst; try done.
Qed.

Lemma keys_update name f st : keys (update_bucket name f st) = keys st.
Proof.
  induction st as [|[n c] rest IH]; simpl; [done|].
  case_decide; simpl; [done | by rewrite IH].
Qed.

Lemma keys_app st st' : keys (st ++ st') = keys st ++ keys st'.
Proof. unfold keys. apply fmap_app. Qed.

(** Removing a bucket is filtering on its name. *)
Lemma remove_bucket_filter name st :
  remove_bucket name st = filter (λ p, p.1 ≠ name) st.
Proof.
  induction st as [|[n c] rest IH]; simpl; [done|].
  rewrite filter_cons. simpl.
  case_decide as Hn; subst.
  - rewrite decide_False by (intros H; by apply H). exact IH.
  - rewrite decide_True by done. by rewrite IH.
Qed.

(** ** The stored batch *)

Section Batch.
Variable net : Request -> Settled Response.

(** Every entry of a fetched batch is a request with the answer the
    network gave to it, and that answer can be stored. *)
Lemma fetch_all_entries requests entries :
  fetch_all net requests = Fulfilled entries ->
  entries.*1 = requests /\
  Forall (λ e, net e.1 = Fulfilled e.2 /\ cacheable e.2 = true) entries.
Proof.
  revert entries. induction requests as [|rq rest IH]; simpl; intros entries H.
  - by inversion H.
  - destruct (net rq) as [r|e] eqn:Hnet; [|discriminate].
    destruct (cacheable r) eqn:Hc; [|discriminate].
    destruct (fetch_all net rest) as [l|e]; [|discriminate].
    destruct (IH l eq_refl) as [Hl Hall]. inversion H as [Hentries].
    split; [by rewrite fmap_cons, Hl|]. constructor; [done | exact Hall].
Qed.

(** The batch fails as soon as one request of the list does. *)
Lemma fetch_all_rejected requests rq :
  rq ∈ requests ->
  (forall r, net rq = Fulfilled r -> cacheable r = false) ->
  exists e, fetch_all net requests = Rejected e.
Proof.
  intros Hin Hbad. induction requests as [|rq' rest IH]; [inversion Hin|].
  simpl. destruct (net rq') as [r|e] eqn:Hnet; [|eauto].
  destruct (cacheable r) eqn:Hc; [|eauto].
  apply elem_of_cons in Hin as [->|Hin].
  - rewrite (Hbad r Hnet) in Hc. discriminate.
  - destruct (IH Hin) as [e ->]. eauto.
Qed.


(** Writing a batch whose entries agree with [answer] keeps a binding that
    agrees with [answer]. *)
Lemma put_all_keeps (answer : string -> option Response) entries c u r :
  Forall (λ e, answer (url e.1) = Some e.2) entries ->
  answer u = Some r -> c !! u = Some r ->
  put_all entries c !! u = Some r.
Proof.
  intros Hall Hu. revert c.
  induction Hall as [|e rest He _ IH]; intros c Hc; [exact Hc|].
  unfold put_all. simpl. apply IH.
  destruct (decide (url e.1 = u)) as [Heq|Hne].
  - rewrite Heq, lookup_insert_eq. congruence.
  - by rewrite lookup_insert_ne.
Qed.

Lemma put_all_lookup (answer : string -> option Response) entries c e :
  Forall (λ e, answer (url e.1) = Some e.2) entries ->
  e ∈ entries -> put_all entries c !! url e.1 = Some e.2.
Proof.
  intros Hall. revert c.
  induction Hall as [|e' rest He' Hrest IH]; intros c Hin; [inversion Hin|].
  apply elem_of_cons in Hin as [->|Hin].
  - unfold put_all. simpl. apply (put_all_keeps answer); [done..|].
    apply lookup_insert_eq.
  - unfold put_all. simpl. by apply IH.
Qed.

(** A URL outside the batch keeps its binding. *)
Lemma put_all_other entries c u :
  u ∉ url <$> entries.*1 -> put_all entries c !! u = c !! u.
Proof.
  revert c. induction entries as [|e rest IH]; intros c Hu; [done|].
  unfold put_all. simpl. rewrite fmap_cons, fmap_cons in Hu.
  apply not_elem_of_cons in Hu as [Hne Hu].
  fold (put_all rest (<[url e.1:=e.2]> c)). rewrite IH by done.
  by rewrite lookup_insert_ne.
Qed.
End Batch.

(** ** Opening a bucket *)

Lemma bucket_open_eq name st :
  bucket name (open_bucket name st) = Some (default ∅ (bucket name st)).
Proof.
  unfold open_bucket. destruct (bucket name st) as [c|] eqn:Hb; simpl.
  - exact Hb.
  - rewrite bucket_app, Hb. simpl. by rewrite decide_True.
Qed.

Lemma bucket_open_ne name other st :
  other ≠ name -> bucket other (open_bucket name st) = bucket other st.
Proof.
  intros Hne. unfold open_bucket. destruct (bucket name st); [done|].
  rewrite bucket_app. destruct (bucket other st); [done|].
  simpl. by rewrite decide_False.
Qed.

Lemma keys_open name st :
  keys (open_bucket name st) =
  if decide (name ∈ keys st) then keys st else keys st ++ [name].
Proof.
  unfold open_bucket. destruct (bucket name st) as [c|] eqn:Hb.
  - rewrite decide_True; [done|]. apply bucket_is_Some. by rewrite Hb.
  - rewrite decide_False by (by apply bucket_None). by rewrite keys_app.
Qed.

(** ** install *)

Section Install.
Variable net : Request -> Settled Response.
Variable label : string.
Variable urls : list string.

(** What the chain of [install] comes to. *)
Lemma install_listener_run w :
  install_listener net label urls w =
  let requests := request_of_url <$> urls in
  let w1 := log_requests requests (set_storage (open_bucket label (storage w)) w) in
  match fetch_all net requests with
  | Rejected e => (Rejected e, w1)
  | Fulfilled entries =>
      (Fulfilled (),
       set_storage (update_bucket label (put_all entries) (storage w1)) w1)
  end.
Proof. reflexivity. Qed.

Lemma install_listener_stores w w' :
  install_listener net label urls w = (Fulfilled (), w') ->
  forall u, u ∈ urls ->
    exists c r, bucket label (storage w') = Some c /\
                net (request_of_url u) = Fulfilled r /\
                cache_match c (request_of_url u) = Some r.
Proof.
  rewrite install_listener_run. cbv zeta.
  destruct (fetch_all net (request_of_url <$> urls)) as [entries|e] eqn:Hf;
    [|discriminate].
  intros Hw u Hu. inversion Hw as [Hw']. clear Hw Hw'. simpl.
  destruct (fetch_all_entries net _ _ Hf) as [Hreq Hall].
  assert (Hin : request_of_url u ∈ entries.*1).
  { rewrite Hreq. apply list_elem_of_fmap. eauto. }
  apply list_elem_of_fmap in Hin as ([rq r] & Hrq & Hin). simpl in Hrq. subst rq.
  pose proof (proj1 (Forall_forall _ _) Hall _ Hin) as [Hnet _]. simpl in Hnet.
  rewrite bucket_update_eq, bucket_open_eq. simpl.
  eexists _, r. split; [reflexivity|]. split; [exact Hnet|].
  unfold cache_match. simpl.
  apply (put_all_lookup
           (λ u', match net (request_of_url u') with
                  | Fulfilled r' => Some r'
                  | Rejected _ => None
                  end) entries _ (request_of_url u, r)); [|exact Hin].
  apply Forall_forall. intros [rq' r'] Hin'. simpl.
  pose proof (proj1 (Forall_forall _ _) Hall _ Hin') as [Hnet' _]. simpl in Hnet'.
  assert (Hrq' : rq' ∈ request_of_url <$> urls).
  { rewrite <- Hreq. apply list_elem_of_fmap. by exists (rq', r'). }
  apply list_elem_of_fmap in Hrq' as (u' & -> & _). simpl. by rewrite Hnet'.
Qed.


(** The buckets of other names are out of the install's reach, and so are
    the entries of the label's bucket for URLs outside the list. *)
Lemma install_listener_frame w other :
  other ≠ label ->
  bucket other (storage (install_listener net label urls w).2) =
  bucket other (storage w).
Proof.
  intros Hne. rewrite install_listener_run. cbv zeta.
  destruct (fetch_all net (request_of_url <$> urls)); simpl.
  - by rewrite bucket_update_ne, bucket_open_ne.
  - by apply bucket_open_ne.
Qed.

Lemma install_listener_keeps_entry w u c :
  u ∉ urls ->
  bucket label (storage w) = Some c ->
  exists c', bucket label (storage (install_listener net label urls w).2) = Some c' /\
             c' !! u = c !! u.
Proof.
  intros Hu Hb. rewrite install_listener_run. cbv zeta.
  destruct (fetch_all net (request_of_url <$> urls)) as [entries|e] eqn:Hf; simpl.
  - rewrite bucket_update_eq, bucket_open_eq, Hb. simpl.
    eexists. split; [reflexivity|]. apply put_all_other.
    destruct (fetch_all_entries net _ _ Hf) as [-> _].
    rewrite <- list_fmap_compose. intros Hin.
    apply list_elem_of_fmap in Hin as (u' & -> & Hin). by apply Hu.
  - rewrite bucket_open_eq, Hb. simpl. eauto.
Qed.

Lemma install_listener_fails w u e :
  u ∈ urls -> net (request_of_url u) = Rejected e ->
  exists e',
    install_listener net label urls w =
    (Rejected e',
     log_requests (request_of_url <$> urls)
                  (set_storage (open_bucket label (storage w)) w)).
Proof.
  intros Hu Hnet. rewrite install_listener_run. cbv zeta.
  destruct (fetch_all_rejected net (request_of_url <$> urls) (request_of_url u))
    as [e' ->].
  - apply list_elem_of_fmap. eauto.
  - intros r Hr. congruence.
  - eauto.
Qed.
End Install.

(** ** fetch *)

Lemma storage_match_None request st :
  storage_match request st = None <->
  Forall (λ b, cache_match b.2 request = None) st.
Proof.
  induction st as [|[n c] rest IH]; simpl.
  - split; [constructor | done].
  - destruct (cache_match c request) as [r|] eqn:Hc.
    + split; [discriminate|]. intros H. inversion H; simplify_eq/=.
    + rewrite IH. split; [by constructor|]. intros H. by inversion H.
Qed.

Lemma storage_match_current name request st c r :
  bucket name st = Some c -> cache_match c request = Some r ->
  storage_match request st =
  match storage_match request (before name st) with
  | Some r' => Some r'
  | None => Some r
  end.
Proof.
  intros Hb Hc. induction st as [|[n c'] rest IH]; simpl in *; [discriminate|].
  case_decide as Hn; simpl.
  - inversion Hb; subst. by rewrite Hc.
  - destruct (cache_match c' request); [done | by apply IH].
Qed.

Lemma before_only name st :
  Forall (λ n, n = name) (keys st) -> before name st = [].
Proof.
  destruct st as [|[n c] rest]; simpl; [done|].
  intros H. inversion H; subst. simpl in *. by rewrite decide_True.
Qed.

Section Fetch.
Variable net : Request -> Settled Response.

(** What the chain of [fetch] comes to. *)
Lemma fetch_listener_run request w :
  fetch_listener net request w =
  match storage_match request (storage w) with
  | Some r => (Fulfilled r, w)
  | None => (net request, log_requests [request] w)
  end.
Proof.
  unfold fetch_listener, then_, caches_match.
  by destruct (storage_match request (storage w)).
Qed.
End Fetch.

(** ** activate *)

Lemma filter_ext_in {A} (P Q : A -> Prop)
    `{!∀ x, Decision (P x), !∀ x, Decision (Q x)} (l : list A) :
  (forall x, x ∈ l -> (P x <-> Q x)) -> filter P l = filter Q l.
Proof.
  induction l as [|a l IH]; intros Hext; [done|].
  rewrite !filter_cons.
  rewrite IH by (intros x Hx; apply Hext; by right).
  apply decide_ext, Hext. by left.
Qed.

Lemma filter_all {A} (P : A -> Prop) `{!∀ x, Decision (P x)} (l : list A) :
  Forall P l -> filter P l = l.
Proof.
  induction 1 as [|a l Ha _ IH]; [done|].
  by rewrite filter_cons_True, IH.
Qed.

Lemma bucket_filter_label label st :
  bucket label (filter (λ p, p.1 = label) st) = bucket label st.
Proof.
  induction st as [|[n c] rest IH]; [done|].
  rewrite filter_cons. simpl.
  case_decide as Hn; simpl; [by rewrite decide_True | exact IH].
Qed.

Lemma keys_filter_label label st :
  Forall (λ n, n = label) (keys (filter (λ p, p.1 = label) st)).
Proof.
  unfold keys. apply Forall_fmap, Forall_forall.
  intros p Hp. apply list_elem_of_filter in Hp as [Hp _]. exact Hp.
Qed.

Section Activate.
Variable label : string.

(** One callback of the map. *)
Lemma prune_run cacheName w :
  prune label cacheName w =
  if decide (cacheName ≠ label)
  then (Fulfilled (Some (bool_decide (is_Some (bucket cacheName (storage w))))),
        set_storage (remove_bucket cacheName (storage w)) w)
  else (Fulfilled None, w).
Proof. unfold prune. by case_decide. Qed.

(** The callbacks over any list of names: all of them settle, a deletion
    was requested exactly for the names other than the label, and what is
    left of the storage is the label's buckets and those not listed. *)
Lemma prune_all_run names w :
  exists results,
    Promise_all (prune label <$> names) w =
      (Fulfilled results,
       set_storage (filter (λ p, p.1 = label ∨ p.1 ∉ names) (storage w)) w) /\
    Forall2 (λ n r, n ≠ label <-> is_Some r) names results.
Proof.
  revert w. induction names as [|n names IH]; intros w.
  - exists []. split; [|constructor]. simpl. f_equal.
    destruct w as [st lg]. unfold set_storage. simpl. f_equal.
    symmetry. apply filter_all, Forall_forall.
    intros p _. right. apply not_elem_of_nil.
  - rewrite fmap_cons. simpl. rewrite prune_run.
    case_decide as Hn.
    + destruct (IH (set_storage (remove_bucket n (storage w)) w))
        as (results & -> & Hshape).
      eexists. split; [|constructor; [|exact Hshape]].
      * f_equal. unfold set_storage. simpl. f_equal.
        rewrite remove_bucket_filter, list_filter_filter.
        apply list_filter_iff. intros p. rewrite not_elem_of_cons.
        intuition congruence.
      * split; [eauto | done].
    + destruct (IH w) as (results & -> & Hshape).
      eexists. split; [|constructor; [|exact Hshape]].
      * f_equal. f_equal. apply list_filter_iff. intros p.
        rewrite not_elem_of_cons. subst n.
        destruct (decide (p.1 = label)); intuition congruence.
      * split; [done | intros [? ?]; discriminate].
Qed.

(** What the chain of [activate] comes to. *)
Lemma activate_listener_run w :
  exists results,
    activate_listener label w =
      (Fulfilled results,
       set_storage (filter (λ p, p.1 = label) (storage w)) w) /\
    Forall2 (λ n r, n ≠ label <-> is_Some r) (keys (storage w)) results.
Proof.
  destruct (prune_all_run (keys (storage w)) w) as (results & Hrun & Hshape).
  exists results. split; [|exact Hshape].
  unfold activate_listener, then_, caches_keys. rewrite Hrun.
  f_equal. f_equal. apply filter_ext_in. intros p Hp.
  assert (p.1 ∈ keys (storage w)) by (apply list_elem_of_fmap; eauto).
  intuition congruence.
Qed.

Lemma activate_listener_world w :
  (activate_listener label w).2 =
  set_storage (filter (λ p, p.1 = label) (storage w)) w.
Proof. destruct (activate_listener_run w) as (results & -> & _). done. Qed.
End Activate.

(** ** The fetch listener of the deployed worker *)

(** C1, as stated, fails: with the bucket of a previous version created
    before the current one and holding an entry for the same request, the
    request matches the current bucket's entry, yet [fetch_handler] resolves
    with the older bucket's response. *)
Lemma fetch_handler_earlier_bucket_wins :
  bucket CACHE_NAME (storage world_two_versions) = Some {[ "/" := page "new" ]} /\
  cache_match {[ "/" := page "new" ]} (request_of_url "/") = Some (page "new") /\
  fetch_handler net_offline (request_of_url "/") world_two_versions =
    (Fulfilled (page "old"), world_two_versions) /\
  page "old" ≠ page "new".
Proof. repeat split; try reflexivity. discriminate. Qed.

(** C1 (amended): for every request that matches an entry stored in the
    current bucket, [fetch_handler] performs no network call (the world,
    request log included, is unchanged) and resolves with the stored response
    of the first bucket in creation order that has a matching entry; that is
    the current bucket's response whenever no bucket created before the
    current one has a matching entry. *)
Theorem fetch_handler_cached net request w c r :
  bucket CACHE_NAME (storage w) = Some c ->
  cache_match c request = Some r ->
  exists r',
    storage_match request (storage w) = Some r' /\
    fetch_handler net request w = (Fulfilled r', w) /\
    (storage_match request (before CACHE_NAME (storage w)) = None -> r' = r).
Proof.
  intros Hb Hc. unfold fetch_handler. rewrite fetch_listener_run.
  rewrite (storage_match_current _ _ _ _ _ Hb Hc).
  destruct (storage_match request (before CACHE_NAME (storage w))) as [r'|].
  - exists r'. repeat split. discriminate.
  - exists r. repeat split.
Qed.

Lemma fetch_handler_cached_witness :
  exists r',
    storage_match (request_of_url "/") (storage world_current) = Some r' /\
    fetch_handler net_offline (request_of_url "/") world_current =
      (Fulfilled r', world_current) /\
    (storage_match (request_of_url "/")
       (before CACHE_NAME (storage world_current)) = None ->
     r' = page "new").
Proof.
  apply (fetch_handler_cached net_offline (request_of_url "/") world_current
           {[ "/" := page "new" ]} (page "new")); reflexivity.
Defined.

(** When the current bucket is the only one, as [activate] leaves it, the
    response served is the current bucket's. *)
Lemma fetch_handler_cached_only_bucket net request w c r :
  Forall (λ n, n = CACHE_NAME) (keys (storage w)) ->
  bucket CACHE_NAME (storage w) = Some c ->
  cache_match c request = Some r ->
  fetch_handler net request w = (Fulfilled r, w).
Proof.
  intros Honly Hb Hc. unfold fetch_handler. rewrite fetch_listener_run.
  rewrite (storage_match_current _ _ _ _ _ Hb Hc), (before_only _ _ Honly).
  done.
Qed.

(** C2: a request that matches no stored entry is forwarded to the network
    (it is the one request added to the log) and the handler settles exactly
    as the network did, fulfilled or rejected. *)
Theorem fetch_handler_uncached net request w :
  Forall (λ b, cache_match b.2 request = None) (storage w) ->
  fetch_handler net request w = (net request, log_requests [request] w).
Proof.
  intros Hnone. unfold fetch_handler. rewrite fetch_listener_run.
  by rewrite (proj2 (storage_match_None request (storage w)) Hnone).
Qed.

Lemma fetch_handler_uncached_witness :
  fetch_handler net_offline (request_of_url "/app.js") world_current =
  (net_offline (request_of_url "/app.js"),
   log_requests [request_of_url "/app.js"] world_current).
Proof.
  apply (fetch_handler_uncached net_offline (request_of_url "/app.js") world_current).
  repeat constructor.
Defined.

(** C8: the fetch handler leaves the cache storage as it found it, whatever
    the request, the network and the storage. *)
Theorem fetch_handler_storage_unchanged net request w :
  storage (fetch_handler net request w).2 = storage w.
Proof.
  unfold fetch_handler. rewrite fetch_listener_run.
  by destruct (storage_match request (storage w)).
Qed.

(** C9: the handler takes requests of any method, and one whose method is not
    GET never gets a stored response from the lookup, so it is forwarded to
    the network. *)
Theorem fetch_handler_non_get net request w :
  method request ≠ GET ->
  storage_match request (storage w) = None /\
  fetch_handler net request w = (net request, log_requests [request] w).
Proof.
  intros Hm.
  assert (Hnone : Forall (λ b, cache_match b.2 request = None) (storage w)).
  { apply Forall_forall. intros b _. unfold cache_match. by rewrite decide_False. }
  split; [by apply storage_match_None|].
  unfold fetch_handler. rewrite fetch_listener_run.
  by rewrite (proj2 (storage_match_None request (storage w)) Hnone).
Qed.

Lemma fetch_handler_non_get_witness :
  storage_match {| url := "/"; method := "POST" |} (storage world_current) = None /\
  fetch_handler net_online {| url := "/"; method := "POST" |} world_current =
    (net_online {| url := "/"; method := "POST" |},
     log_requests [{| url := "/"; method := "POST" |}] world_current).
Proof.
  apply (fetch_handler_non_get net_online {| url := "/"; method := "POST" |}
           world_current).
  discriminate.
Defined.

(** ** The install listener of the deployed worker *)

(** C3: after a successful install every URL of [urlsToCache] has an entry in
    the bucket [CACHE_NAME], and looking it up gives the very response the
    network answered with during the install. *)
Theorem install_caches_every_url net w w' :
  install net w = (Fulfilled (), w') ->
  forall u, u ∈ urlsToCache ->
    exists c r, bucket CACHE_NAME (storage w') = Some c /\
                net (request_of_url u) = Fulfilled r /\
                cache_match c (request_of_url u) = Some r.
Proof. unfold install. apply install_listener_stores. Qed.

Lemma install_caches_every_url_witness :
  exists c r,
    bucket CACHE_NAME (storage (install net_online world_v0).2) = Some c /\
    net_online (request_of_url "/manifest.json") = Fulfilled r /\
    cache_match c (request_of_url "/manifest.json") = Some r.
Proof.
  apply (install_caches_every_url net_online world_v0
           (install net_online world_v0).2).
  - reflexivity.
  - unfold urlsToCache. do 2 right. left.
Defined.

(** C4: when the fetch of one URL of the list fails, the install is rejected,
    nothing of the list is written (the storage is the one [caches.open] left:
    the current bucket holds what it held before, nothing if it was missing,
    and the other buckets are as they were), and the host makes the worker
    redundant without dispatching [activate]. *)
Theorem install_fails_atomically net w u e :
  u ∈ urlsToCache ->
  net (request_of_url u) = Rejected e ->
  exists e' w',
    install net w = (Rejected e', w') /\
    storage w' = open_bucket CACHE_NAME (storage w) /\
    bucket CACHE_NAME (storage w') = Some (default ∅ (bucket CACHE_NAME (storage w))) /\
    (forall other, other ≠ CACHE_NAME ->
       bucket other (storage w') = bucket other (storage w)) /\
    deploy net CACHE_NAME urlsToCache w = (Redundant, w').
Proof.
  intros Hu Hnet.
  destruct (install_listener_fails net CACHE_NAME urlsToCache w u e Hu Hnet)
    as [e' Hrun].
  eexists e', _. unfold install, deploy. rewrite Hrun. simpl.
  split; [reflexivity|]. split; [reflexivity|].
  split; [apply bucket_open_eq|]. split; [|reflexivity].
  intros other Hne. by apply bucket_open_ne.
Qed.

Lemma install_fails_atomically_witness :
  exists e' w',
    install net_no_fonts world_v0 = (Rejected e', w') /\
    storage w' = open_bucket CACHE_NAME (storage world_v0) /\
    bucket CACHE_NAME (storage w') =
      Some (default ∅ (bucket CACHE_NAME (storage world_v0))) /\
    (forall other, other ≠ CACHE_NAME ->
       bucket other (storage w') = bucket other (storage world_v0)) /\
    deploy net_no_fonts CACHE_NAME urlsToCache world_v0 = (Redundant, w').
Proof.
  apply (install_fails_atomically net_no_fonts world_v0
           "https://fonts.googleapis.com/css2?family=Cormorant+Garamond:ital,wght@0,400;0,500;0,600;1,400&family=Montserrat:wght@300;400;500;600&display=swap"
           (TypeError "Failed to fetch")).
  - unfold urlsToCache. do 3 right. left.
  - reflexivity.
Defined.

(** ** The activate listener of the deployed worker *)

(** C5: [activate] requests a deletion for each enumerated bucket name other
    than [CACHE_NAME] (and for none that equals it), and once it has settled
    every bucket left bears the name [CACHE_NAME]. *)
Theorem activate_prunes_stale_buckets w :
  exists results,
    (activate w).1 = Fulfilled results /\
    Forall2 (λ n r, n ≠ CACHE_NAME <-> is_Some r) (keys (storage w)) results /\
    Forall (λ n, n = CACHE_NAME) (keys (storage (activate w).2)).
Proof.
  unfold activate.
  destruct (activate_listener_run CACHE_NAME w) as (results & -> & Hshape).
  exists results. split; [done|]. split; [exact Hshape|].
  simpl. apply keys_filter_label.
Qed.

(** C6: [activate] leaves the bucket [CACHE_NAME] with the contents it had. *)
Theorem activate_keeps_current_bucket w :
  bucket CACHE_NAME (storage (activate w).2) = bucket CACHE_NAME (storage w).
Proof.
  unfold activate. rewrite activate_listener_world. simpl.
  apply bucket_filter_label.
Qed.

(** C10: running [activate] a second time changes nothing: the buckets and
    their contents are those left by the first run. *)
Theorem activate_idempotent w :
  (activate (activate w).2).2 = (activate w).2.
Proof.
  unfold activate. rewrite !activate_listener_world.
  unfold set_storage. simpl. f_equal.
  apply filter_all, Forall_forall. intros p Hp.
  apply list_elem_of_filter in Hp as [Hp _]. exact Hp.
Qed.

(** ** Deploying a new version *)

Lemma keys_filter_label_eq label st :
  keys (filter (λ p, p.1 = label) st) = filter (λ n, n = label) (keys st).
Proof.
  induction st as [|[n c] rest IH]; [done|].
  unfold keys in *. rewrite fmap_cons, !filter_cons. simpl.
  case_decide; [rewrite fmap_cons|]; by rewrite IH.
Qed.

Lemma filter_label_fresh label (names : list string) :
  label ∉ names -> filter (λ n, n = label) names = [].
Proof.
  induction names as [|n names IH]; [done|].
  intros [Hne Hfresh]%not_elem_of_cons.
  rewrite filter_cons_False by congruence. by apply IH.
Qed.

(** Whether it is fulfilled or rejected, [install] leaves the buckets that
    [caches.open] left. *)
Lemma install_listener_keys net label urls w :
  keys (storage (install_listener net label urls w).2) =
  keys (open_bucket label (storage w)).
Proof.
  rewrite install_listener_run. cbv zeta.
  destruct (fetch_all net (request_of_url <$> urls)); simpl; [|done].
  apply keys_update.
Qed.

(** C7: from any storage, a worker deployed under a label that names no
    existing bucket leaves, once its install and activate listeners have run,
    exactly the bucket of that label: every earlier bucket is gone. After
    install and after activate alike, exactly one bucket bears the label. *)
Theorem new_version_leaves_one_bucket net label w :
  label ∉ keys (storage w) ->
  let w1 := (install_listener net label urlsToCache w).2 in
  let w2 := (activate_listener label w1).2 in
  keys (storage w2) = [label] /\
  Forall (λ n, n ∉ keys (storage w2)) (keys (storage w)) /\
  length (filter (λ n, n = label) (keys (storage w1))) = 1 /\
  length (filter (λ n, n = label) (keys (storage w2))) = 1.
Proof.
  intros Hfresh w1 w2.
  assert (Hk1 : keys (storage w1) = keys (storage w) ++ [label]).
  { unfold w1. rewrite install_listener_keys, keys_open. by rewrite decide_False. }
  assert (Hone : filter (λ n, n = label) (keys (storage w1)) = [label]).
  { rewrite Hk1, filter_app, (filter_label_fresh _ _ Hfresh). simpl.
    by rewrite filter_cons_True. }
  assert (Hk2 : keys (storage w2) = [label]).
  { unfold w2. rewrite activate_listener_world. simpl.
    by rewrite keys_filter_label_eq. }
  split; [exact Hk2|]. split; [|split].
  - apply Forall_forall. intros n Hn. rewrite Hk2.
    intros ->%list_elem_of_singleton. by apply Hfresh.
  - by rewrite Hone.
  - rewrite Hk2. by rewrite filter_cons_True.
Qed.

Lemma new_version_leaves_one_bucket_witness :
  keys (storage (activate_listener "vofo-music-v2"
                   (install_listener net_online "vofo-music-v2" urlsToCache
                      world_two_versions).2).2) = ["vofo-music-v2"] /\
  Forall (λ n, n ∉ keys (storage (activate_listener "vofo-music-v2"
                   (install_listener net_online "vofo-music-v2" urlsToCache
                      world_two_versions).2).2))
         (keys (storage world_two_versions)) /\
  length (filter (λ n, n = "vofo-music-v2")
            (keys (storage (install_listener net_online "vofo-music-v2"
                              urlsToCache world_two_versions).2))) = 1 /\
  length (filter (λ n, n = "vofo-music-v2")
            (keys (storage (activate_listener "vofo-music-v2"
                   (install_listener net_online "vofo-music-v2" urlsToCache
                      world_two_versions).2).2))) = 1.
Proof.
  apply (new_version_leaves_one_bucket net_online "vofo-music-v2"
           world_two_versions).
  simpl. by apply (bool_decide_unpack _).
Defined.

(** Under the host's lifecycle the same holds for a deployment that reaches
    activation; one whose install is rejected stops before [activate]. *)
Lemma deploy_activated_one_bucket net label w w' :
  label ∉ keys (storage w) ->
  deploy net label urlsToCache w = (Activated, w') ->
  keys (storage w') = [label].
Proof.
  intros Hfresh. unfold deploy.
  pose proof (install_listener_keys net label urlsToCache w) as Hk.
  destruct (install_listener net label urlsToCache w) as [[[]|e] w1];
    [|discriminate].
  intros [= <-]. rewrite activate_listener_world. simpl in *.
  rewrite keys_filter_label_eq, Hk, keys_open, decide_False by done.
  rewrite filter_app, (filter_label_fresh _ _ Hfresh). simpl.
  by rewrite filter_cons_True.
Qed.

(** * Further properties of the listeners *)

(** ** Batches, once more *)


Lemma put_all_dom entries (c : Cache) :
  dom (put_all entries c) = dom c ∪ list_to_set (url <$> entries.*1).
Proof.
  revert c. induction entries as [|e rest IH]; intros c.
  - simpl. by rewrite (right_id_L ∅ (∪)).
  - unfold put_all. simpl. fold (put_all rest (<[url e.1:=e.2]> c)).
    rewrite IH, dom_insert_L.
    apply set_eq. intros x. rewrite !elem_of_union. tauto.
Qed.

Lemma put_all_lookup_Some entries (c : Cache) u r :
  put_all entries c !! u = Some r ->
  c !! u = Some r \/ exists e, e ∈ entries /\ url e.1 = u /\ e.2 = r.
Proof.
  revert c. induction entries as [|e rest IH]; intros c H; [by left|].
  unfold put_all in H. simpl in H. fold (put_all rest (<[url e.1:=e.2]> c)) in H.
  destruct (IH _ H) as [Hc|(e' & Hin & Hu & Hr)].
  - apply lookup_insert_Some in Hc as [[Hu Hr]|[_ Hc]]; [|by left].
    right. exists e. split; [by left | done].
  - right. exists e'. split; [by right | done].
Qed.

Lemma put_all_absorbs entries (c : Cache) k v v' :
  <[k:=v]> (put_all entries (<[k:=v']> c)) = <[k:=v]> (put_all entries c).
Proof.
  revert c. induction entries as [|e rest IH]; intros c.
  - simpl. apply insert_insert_eq.
  - unfold put_all. simpl.
    fold (put_all rest (<[url e.1:=e.2]> (<[k:=v']> c))).
    fold (put_all rest (<[url e.1:=e.2]> c)).
    destruct (decide (url e.1 = k)) as [->|Hne].
    + by rewrite insert_insert_eq.
    + rewrite (insert_insert_ne c) by done. apply IH.
Qed.

Lemma put_all_snoc entries e (c : Cache) :
  put_all (entries ++ [e]) c = <[url e.1:=e.2]> (put_all entries c).
Proof. unfold put_all. by rewrite foldl_app. Qed.

(** Writing the same batch again changes nothing. *)
Lemma put_all_twice entries (c : Cache) :
  put_all entries (put_all entries c) = put_all entries c.
Proof.
  revert c. induction entries as [|e rest IH] using rev_ind; intros c; [done|].
  by rewrite !put_all_snoc, put_all_absorbs, IH.
Qed.

(** ** Storages, once more *)

Lemma open_bucket_present name st :
  name ∈ keys st -> open_bucket name st = st.
Proof.
  intros Hin. apply bucket_is_Some in Hin as [c Hc].
  unfold open_bucket. by rewrite Hc.
Qed.

Lemma open_bucket_twice name st :
  open_bucket name (open_bucket name st) = open_bucket name st.
Proof.
  apply open_bucket_present, bucket_is_Some. rewrite bucket_open_eq. eauto.
Qed.

Lemma update_bucket_twice name f st :
  (forall c, f (f c) = f c) ->
  update_bucket name f (update_bucket name f st) = update_bucket name f st.
Proof.
  intros Hf. induction st as [|[n c] rest IH]; simpl; [done|].
  case_decide as Hn; simpl.
  - rewrite decide_True by done. by rewrite Hf.
  - rewrite decide_False by done. by rewrite IH.
Qed.

Lemma storage_match_Some request st r :
  storage_match request st = Some r ->
  exists b, b ∈ st /\ cache_match b.2 request = Some r.
Proof.
  induction st as [|[n c] rest IH]; simpl; [discriminate|].
  destruct (cache_match c request) as [r'|] eqn:Hc.
  - intros [= ->]. exists (n, c). split; [by left | done].
  - intros H. destruct (IH H) as (b & Hb & Hm). exists b. split; [by right | done].
Qed.

Lemma keys_remove_bucket name st n :
  n ∈ keys (remove_bucket name st) <-> n ≠ name /\ n ∈ keys st.
Proof.
  rewrite remove_bucket_filter. unfold keys. rewrite !list_elem_of_fmap. split.
  - intros (p & -> & Hp). apply list_elem_of_filter in Hp as [Hne Hp]. eauto.
  - intros (Hne & p & -> & Hp). exists p. split; [done|].
    by apply list_elem_of_filter.
Qed.

Lemma keys_open_NoDup name st : NoDup (keys st) -> NoDup (keys (open_bucket name st)).
Proof.
  intros Hnd. rewrite keys_open. case_decide as Hin; [done|].
  apply NoDup_app. split; [done|]. split; [|apply NoDup_singleton].
  intros n Hn ->%list_elem_of_singleton. by apply Hin.
Qed.

(** ** install, beyond the list being stored *)


(** X2: a listed URL answered with a response that cannot be stored (a 404,
    say) rejects the install as a network failure does: nothing of the list is
    written and the worker is made redundant. *)
Theorem install_rejects_unstorable net w u r :
  u ∈ urlsToCache ->
  net (request_of_url u) = Fulfilled r ->
  cacheable r = false ->
  exists e w',
    install net w = (Rejected e, w') /\
    storage w' = open_bucket CACHE_NAME (storage w) /\
    deploy net CACHE_NAME urlsToCache w = (Redundant, w').
Proof.
  intros Hu Hnet Hbad. unfold install, deploy.
  rewrite install_listener_run. cbv zeta.
  destruct (fetch_all_rejected net (request_of_url <$> urlsToCache)
              (request_of_url u)) as [e ->].
  - apply list_elem_of_fmap. eauto.
  - intros r' Hr'. congruence.
  - eexists e, _. repeat split.
Qed.

Lemma install_rejects_unstorable_witness :
  exists e w',
    install net_no_manifest world_v0 = (Rejected e, w') /\
    storage w' = open_bucket CACHE_NAME (storage world_v0) /\
    deploy net_no_manifest CACHE_NAME urlsToCache world_v0 = (Redundant, w').
Proof.
  apply (install_rejects_unstorable net_no_manifest world_v0 "/manifest.json"
           {| status := 404; body := "Not Found" |}).
  - unfold urlsToCache. do 2 right. left.
  - reflexivity.
  - reflexivity.
Defined.

(** X3: the install neither removes nor changes a bucket of another name;
    the one bucket it may add is the current one, after the existing ones. *)
Theorem install_leaves_other_buckets net w other :
  other ≠ CACHE_NAME ->
  bucket other (storage (install net w).2) = bucket other (storage w) /\
  keys (storage (install net w).2) =
    if decide (CACHE_NAME ∈ keys (storage w)) then keys (storage w)
    else keys (storage w) ++ [CACHE_NAME].
Proof.
  intros Hne. unfold install. split.
  - by apply install_listener_frame.
  - rewrite install_listener_keys. apply keys_open.
Qed.

Lemma install_leaves_other_buckets_witness :
  bucket "vofo-music-v0" (storage (install net_online world_v0).2) =
    bucket "vofo-music-v0" (storage world_v0) /\
  keys (storage (install net_online world_v0).2) =
    if decide (CACHE_NAME ∈ keys (storage world_v0)) then keys (storage world_v0)
    else keys (storage world_v0) ++ [CACHE_NAME].
Proof.
  apply (install_leaves_other_buckets net_online world_v0 "vofo-music-v0").
  discriminate.
Defined.

(** X4: an entry of the current bucket whose URL is not in the list survives
    the install, fulfilled or rejected. *)
Theorem install_keeps_unlisted_entries net w c u :
  bucket CACHE_NAME (storage w) = Some c ->
  u ∉ urlsToCache ->
  exists c', bucket CACHE_NAME (storage (install net w).2) = Some c' /\
             c' !! u = c !! u.
Proof.
  intros Hb Hu. unfold install. by apply install_listener_keeps_entry.
Qed.

Lemma install_keeps_unlisted_entries_witness :
  exists c', bucket CACHE_NAME (storage (install net_online world_extra_entry).2) = Some c' /\
             c' !! "/app.js" = ({[ "/app.js" := page "script" ]} : Cache) !! "/app.js".
Proof.
  apply (install_keeps_unlisted_entries net_online world_extra_entry
           {[ "/app.js" := page "script" ]} "/app.js").
  - reflexivity.
  - by apply (bool_decide_unpack _).
Defined.

(** X5: after a fulfilled install the current bucket holds entries for the
    URLs it held before and for the URLs of the list, and for no other. *)
Theorem install_bucket_domain net w w' :
  install net w = (Fulfilled (), w') ->
  exists c', bucket CACHE_NAME (storage w') = Some c' /\
             dom c' = dom (default ∅ (bucket CACHE_NAME (storage w)))
                      ∪ list_to_set urlsToCache.
Proof.
  unfold install. rewrite install_listener_run. cbv zeta.
  destruct (fetch_all net (request_of_url <$> urlsToCache)) as [entries|e] eqn:Hf;
    [|discriminate].
  intros [= <-]. simpl. rewrite bucket_update_eq, bucket_open_eq. simpl.
  eexists. split; [reflexivity|].
  rewrite put_all_dom. destruct (fetch_all_entries net _ _ Hf) as [-> _].
  rewrite <- list_fmap_compose.
  rewrite (list_fmap_ext (url ∘ request_of_url) id urlsToCache) by done.
  by rewrite list_fmap_id.
Qed.

Lemma install_bucket_domain_witness :
  exists c', bucket CACHE_NAME (storage (install net_online world_extra_entry).2) = Some c' /\
             dom c' = dom (default ∅ (bucket CACHE_NAME (storage world_extra_entry)))
                      ∪ list_to_set urlsToCache.
Proof.
  apply (install_bucket_domain net_online world_extra_entry
           (install net_online world_extra_entry).2).
  reflexivity.
Defined.

(** X6: installing again on the same network leaves the storage as the first
    install left it, whether the install is fulfilled or rejected. *)
Theorem install_twice_same_storage net w :
  storage (install net (install net w).2).2 = storage (install net w).2.
Proof.
  unfold install. rewrite !install_listener_run. cbv zeta.
  destruct (fetch_all net (request_of_url <$> urlsToCache)) as [entries|e]; simpl.
  - rewrite open_bucket_present.
    + apply update_bucket_twice, put_all_twice.
    + rewrite keys_update. apply bucket_is_Some. rewrite bucket_open_eq. eauto.
  - apply open_bucket_twice.
Qed.

(** ** activate, beyond the pruning *)

Lemma prune_all_clean label names w :
  Forall (λ n, n = label) names ->
  Promise_all (prune label <$> names) w = (Fulfilled ((λ _, None) <$> names), w).
Proof.
  induction 1 as [|n names -> _ IH]; [done|].
  rewrite !fmap_cons. simpl. rewrite prune_run.
  case_decide as Hne; [by destruct Hne|]. by rewrite IH.
Qed.

Lemma prune_all_results label names w :
  NoDup names ->
  (forall n, n ∈ names -> n ∈ keys (storage w)) ->
  (Promise_all (prune label <$> names) w).1 =
  Fulfilled ((λ n, if decide (n ≠ label) then Some true else None) <$> names).
Proof.
  intros Hnd. revert w. induction Hnd as [|n names Hn Hnd IH]; intros w Hsub; [done|].
  rewrite !fmap_cons. simpl. rewrite prune_run. case_decide as Hne.
  - assert (Hsub' : forall n', n' ∈ names ->
              n' ∈ keys (storage (set_storage (remove_bucket n (storage w)) w))).
    { intros n' Hn'. simpl. apply keys_remove_bucket. split.
      - intros ->. by apply Hn.
      - apply Hsub. by right. }
    specialize (IH _ Hsub').
    destruct (Promise_all (prune label <$> names)
                (set_storage (remove_bucket n (storage w)) w)) as [rs w2].
    simpl in IH. subst rs. simpl.
    rewrite bool_decide_eq_true_2; [done|].
    apply bucket_is_Some, Hsub. by left.
  - assert (Hsub' : forall n', n' ∈ names -> n' ∈ keys (storage w)).
    { intros n' Hn'. apply Hsub. by right. }
    specialize (IH _ Hsub').
    destruct (Promise_all (prune label <$> names) w) as [rs w2].
    simpl in IH. by subst rs.
Qed.

(** X7: with no bucket of another name in the storage (an empty storage
    included) [activate] requests no deletion and leaves the world as it is. *)
Theorem activate_noop_without_stale_buckets w :
  Forall (λ n, n = CACHE_NAME) (keys (storage w)) ->
  activate w = (Fulfilled ((λ _, None) <$> keys (storage w)), w).
Proof.
  intros Hclean. unfold activate, activate_listener, then_, caches_keys.
  by apply prune_all_clean.
Qed.

Lemma activate_noop_without_stale_buckets_witness :
  activate world_current =
  (Fulfilled ((λ _, None) <$> keys (storage world_current)), world_current).
Proof.
  apply (activate_noop_without_stale_buckets world_current).
  repeat constructor.
Defined.

(** X8: on a storage whose bucket names are distinct, every deletion that
    [activate] requests finds its bucket: the slot of each name other than
    [CACHE_NAME] resolves to [true], the slot of [CACHE_NAME] is [undefined]. *)
Theorem activate_deletions_succeed w :
  NoDup (keys (storage w)) ->
  (activate w).1 =
  Fulfilled ((λ n, if decide (n ≠ CACHE_NAME) then Some true else None)
               <$> keys (storage w)).
Proof.
  intros Hnd. unfold activate, activate_listener, then_, caches_keys.
  by apply prune_all_results.
Qed.

Lemma activate_deletions_succeed_witness :
  (activate world_two_versions).1 =
  Fulfilled ((λ n, if decide (n ≠ CACHE_NAME) then Some true else None)
               <$> keys (storage world_two_versions)).
Proof.
  apply (activate_deletions_succeed world_two_versions).
  by apply (bool_decide_unpack _).
Defined.

(** X9: the three listeners keep the bucket names of the storage distinct. *)
Theorem listeners_keep_names_distinct net request w :
  NoDup (keys (storage w)) ->
  NoDup (keys (storage (install net w).2)) /\
  NoDup (keys (storage (fetch_handler net request w).2)) /\
  NoDup (keys (storage (activate w).2)).
Proof.
  intros Hnd. split; [|split].
  - unfold install. rewrite install_listener_keys. by apply keys_open_NoDup.
  - unfold fetch_handler. rewrite fetch_listener_run.
    by destruct (storage_match request (storage w)).
  - unfold activate. rewrite activate_listener_world. simpl.
    rewrite keys_filter_label_eq. by apply NoDup_filter.
Qed.

Lemma listeners_keep_names_distinct_witness :
  NoDup (keys (storage (install net_online world_two_versions).2)) /\
  NoDup (keys (storage (fetch_handler net_online (request_of_url "/")
                          world_two_versions).2)) /\
  NoDup (keys (storage (activate world_two_versions).2)).
Proof.
  apply (listeners_keep_names_distinct net_online (request_of_url "/")
           world_two_versions).
  by apply (bool_decide_unpack _).
Defined.

(** ** fetch, after the other listeners *)

Lemma update_bucket_fresh name f st c :
  name ∉ keys st ->
  update_bucket name f (st ++ [(name, c)]) = st ++ [(name, f c)].
Proof.
  induction st as [|[n c'] rest IH]; simpl.
  - intros _. by rewrite decide_True.
  - intros [Hne Hrest]%not_elem_of_cons.
    rewrite decide_False by congruence. by rewrite IH.
Qed.

Lemma filter_label_fresh_storage label (st : CacheStorage) :
  label ∉ keys st -> filter (λ p, p.1 = label) st = [].
Proof.
  induction st as [|[n c] rest IH]; [done|]. simpl.
  intros [Hne Hrest]%not_elem_of_cons.
  rewrite filter_cons_False by (simpl; congruence). by apply IH.
Qed.

(** What a served response was stored from: a listed URL and the answer of
    the network to it. *)
Lemma put_all_origin net urls entries u r :
  fetch_all net (request_of_url <$> urls) = Fulfilled entries ->
  put_all entries ∅ !! u = Some r ->
  u ∈ urls /\ net (request_of_url u) = Fulfilled r.
Proof.
  intros Hf Hu. destruct (fetch_all_entries net _ _ Hf) as [Hreq Hall].
  apply put_all_lookup_Some in Hu as [Hu|([rq r'] & Hin & Hurl & Hr)];
    [by rewrite lookup_empty in Hu|].
  simpl in *. subst r'.
  pose proof (proj1 (Forall_forall _ _) Hall _ Hin) as [Hnet _]. simpl in Hnet.
  assert (Hrq : rq ∈ request_of_url <$> urls).
  { rewrite <- Hreq. apply list_elem_of_fmap. by exists (rq, r). }
  apply list_elem_of_fmap in Hrq as (u' & -> & Hu'). simpl in Hurl. by subst u'.
Qed.

(** X10: once [activate] has run, a request that matches an entry of the
    current bucket is answered with that entry, without a network call. *)
Theorem fetch_after_activate_serves_current net request w c r :
  bucket CACHE_NAME (storage w) = Some c ->
  cache_match c request = Some r ->
  fetch_handler net request (activate w).2 = (Fulfilled r, (activate w).2).
Proof.
  intros Hb Hc. unfold activate. rewrite activate_listener_world.
  apply (fetch_handler_cached_only_bucket net request _ c r); simpl.
  - apply keys_filter_label.
  - by rewrite bucket_filter_label.
  - exact Hc.
Qed.

Lemma fetch_after_activate_serves_current_witness :
  fetch_handler net_offline (request_of_url "/") (activate world_two_versions).2 =
  (Fulfilled (page "new"), (activate world_two_versions).2).
Proof.
  apply (fetch_after_activate_serves_current net_offline (request_of_url "/")
           world_two_versions {[ "/" := page "new" ]} (page "new")); reflexivity.
Defined.

(** X11: once [activate] has run, whatever the cache lookup yields was
    stored in a bucket named [CACHE_NAME]: entries of the pruned buckets are
    no longer served. *)
Theorem cached_after_activate_is_current w request r :
  storage_match request (storage (activate w).2) = Some r ->
  exists c, (CACHE_NAME, c) ∈ storage w /\ cache_match c request = Some r.
Proof.
  unfold activate. rewrite activate_listener_world. simpl. intros Hm.
  apply storage_match_Some in Hm as ([n c] & Hin & Hc).
  apply list_elem_of_filter in Hin as [Hn Hin]. simpl in *. subst n. eauto.
Qed.

Lemma cached_after_activate_is_current_witness :
  exists c, (CACHE_NAME, c) ∈ storage world_two_versions /\
            cache_match c (request_of_url "/") = Some (page "new").
Proof.
  apply (cached_after_activate_is_current world_two_versions
           (request_of_url "/") (page "new")).
  reflexivity.
Defined.

(** X12: the fetch handler stores nothing it fetched: a request that missed
    the cache misses it again, and goes to the network a second time. *)
Theorem fetch_handler_miss_twice net request w :
  Forall (λ b, cache_match b.2 request = None) (storage w) ->
  fetch_handler net request (fetch_handler net request w).2 =
  (net request, log_requests [request; request] w).
Proof.
  intros Hnone. apply storage_match_None in Hnone.
  unfold fetch_handler. rewrite !fetch_listener_run. rewrite Hnone. simpl.
  rewrite Hnone. unfold log_requests. simpl. by rewrite <- app_assoc.
Qed.

Lemma fetch_handler_miss_twice_witness :
  fetch_handler net_online (request_of_url "/app.js")
    (fetch_handler net_online (request_of_url "/app.js") world_current).2 =
  (net_online (request_of_url "/app.js"),
   log_requests [request_of_url "/app.js"; request_of_url "/app.js"] world_current).
Proof.
  apply (fetch_handler_miss_twice net_online (request_of_url "/app.js")
           world_current).
  repeat constructor.
Defined.

(** ** A whole deployment *)



(** X14: after a worker deployed under a label that names no existing bucket
    has reached activation, the cache answers only GET requests for the URLs
    of the list, each with the response fetched at its install: nothing stored
    by an earlier version is served any more. *)
Theorem new_version_serves_only_listed net label w w' request r :
  label ∉ keys (storage w) ->
  deploy net label urlsToCache w = (Activated, w') ->
  storage_match request (storage w') = Some r ->
  method request = GET /\ url request ∈ urlsToCache /\ net request = Fulfilled r.
Proof.
  intros Hfresh. unfold deploy. rewrite install_listener_run. cbv zeta.
  destruct (fetch_all net (request_of_url <$> urlsToCache)) as [entries|e] eqn:Hf;
    [|discriminate].
  intros [= <-]. rewrite activate_listener_world. simpl.
  unfold open_bucket. rewrite (proj2 (bucket_None _ _) Hfresh).
  rewrite update_bucket_fresh by done.
  rewrite filter_app, (filter_label_fresh_storage _ _ Hfresh). simpl.
  rewrite filter_cons_True by done. simpl.
  unfold cache_match. case_decide as Hm; [|discriminate].
  destruct (put_all entries ∅ !! url request) as [r'|] eqn:Hl; [|discriminate].
  intros [= ->].
  destruct (put_all_origin net _ _ _ _ Hf Hl) as [Hu Hnet].
  split; [exact Hm|]. split; [exact Hu|].
  destruct request as [u m]. simpl in *. subst m. exact Hnet.
Qed.

Lemma new_version_serves_only_listed_witness :
  method (request_of_url "/") = GET /\
  url (request_of_url "/") ∈ urlsToCache /\
  net_online (request_of_url "/") = Fulfilled (page "/").
Proof.
  apply (new_version_serves_only_listed net_online "vofo-music-v2"
           world_two_versions
           (deploy net_online "vofo-music-v2" urlsToCache world_two_versions).2
           (request_of_url "/") (page "/")).
  - by apply (bool_decide_unpack _).
  - reflexivity.
  - reflexivity.
Defined.
